(** * SOAR incident mock API: the in-memory incident store

    A shallow embedding of [app.py]: the identifier allocator
    ([id_counter], [get_next_id]), the request models ([IncidentCreate],
    [IncidentUpdate]) and the five handlers over the global [incidents]
    list.  Python integers are [Z], a text is a [string] of code points
    below 256, the two module globals are threaded through the handlers
    as an explicit [Store], and an exception is an outcome of its own
    next to a normal return. *)

From Stdlib Require Import ZArith Ascii String.
From stdpp Require Import list strings numbers sorting gmap.

Local Open Scope string_scope.
Local Open Scope list_scope.
Local Open Scope Z_scope.

(** ** Python primitives used by the handlers *)

Module Py.

(** One code point of [str.lower()], for code points below 256: the
    letters A-Z and the Latin-1 capitals U+00C0-U+00DE (the sign U+00D7
    apart) move up by 32, every other code point stays. *)
Definition lower_char (c : ascii) : ascii :=
  let n := N_of_ascii c in
  if ((65 <=? n) && (n <=? 90))%N
     || ((192 <=? n) && (n <=? 222) && negb (n =? 215))%N
  then ascii_of_N (n + 32)
  else c.

(** [s.lower()] *)
Fixpoint lower (s : string) : string :=
  match s with
  | EmptyString => EmptyString
  | String c s' => String (lower_char c) (lower s')
  end.

(** Truth value of an [Optional[str]]: [None] and the empty text are
    false, every other text is true. *)
Definition truthy (o : option string) : bool :=
  match o with
  | None => false
  | Some s => bool_decide (s ≠ "")
  end.

(** Bounds of a slice with step 1 on a sequence of [n] elements: a
    negative bound counts from the end, and either bound is clamped to
    the range from 0 to [n]. *)
Definition adjust_index (n i : Z) : Z :=
  if decide (i < 0) then Z.max (i + n) 0 else Z.min i n.

(** [l[start:stop]] *)
Definition slice {A} (l : list A) (start stop : Z) : list A :=
  let n := Z.of_nat (length l) in
  let lo := adjust_index n start in
  let hi := adjust_index n stop in
  take (Z.to_nat (hi - lo)) (drop (Z.to_nat lo) l).

End Py.

(** ** Exceptions and outcomes *)

Inductive Exception :=
| HTTP_404_NOT_FOUND (incident_id : Z)   (* NotFound *)
| HTTP_422_UNPROCESSABLE                 (* ValidationFailure *)
| ZeroDivisionError.

Inductive Outcome (A : Type) :=
| Returns (a : A)
| Raises (e : Exception).
Arguments Returns {A} a.
Arguments Raises {A} e.

#[global] Instance Outcome_fmap : FMap Outcome :=
  λ A B f o, match o with Returns a => Returns (f a) | Raises e => Raises e end.

(** [a // b] on integers: the floor of the quotient, an exception when
    the divisor is zero. *)
Definition floordiv (a b : Z) : Outcome Z :=
  if decide (b = 0) then Raises ZeroDivisionError else Returns (Z.div a b).

(** ** Data model *)

(** An entry of the [incidents] list. *)
Module Incident.
Record t := mk { id : Z; title : string; status : string; severity : string }.

(** [incident["status"] = s] *)
Definition set_status (s : string) (i : t) : t :=
  {| id := id i; title := title i; status := s; severity := severity i |}.
End Incident.

(** The body of a POST: [title] and [severity] are required
    ([Field(...)]), [status] falls back to ["open"].  A field of the JSON
    body is absent ([None]) or holds a text; no constraint is put on the
    text itself. *)
Module IncidentCreate.
Record t := mk { title : string; status : string; severity : string }.

Record body := mkBody {
  body_title : option string;
  body_status : option string;
  body_severity : option string
}.

Definition validate (b : body) : Outcome t :=
  match body_title b, body_severity b with
  | Some t, Some v =>
      Returns {| title := t;
                 status := default "open" (body_status b);
                 severity := v |}
  | _, _ => Raises HTTP_422_UNPROCESSABLE
  end.
End IncidentCreate.

(** The body of a PATCH: [status] is required. *)
Module IncidentUpdate.
Record t := mk { status : string }.

Record body := mkBody { body_status : option string }.

Definition validate (b : body) : Outcome t :=
  match body_status b with
  | Some s => Returns {| status := s |}
  | None => Raises HTTP_422_UNPROCESSABLE
  end.
End IncidentUpdate.

Module PaginatedResponse.
Record t := mk {
  incidents : list Incident.t;
  total : Z;
  page : Z;
  per_page : Z;
  total_pages : Z
}.
End PaginatedResponse.

(** The two module globals: the list [incidents] and [id_counter["value"]]. *)
Record Store := mkStore {
  incidents : list Incident.t;
  id_counter : Z
}.

Definition initial_incidents : list Incident.t :=
  [ Incident.mk 1 "Phishing Email Campaign Detected" "open" "high";
    Incident.mk 2 "Malware Detected on Endpoint" "closed" "medium";
    Incident.mk 3 "Suspicious Login from Foreign IP" "under investigation" "low" ].

Definition initial_store : Store :=
  {| incidents := initial_incidents; id_counter := 3 |}.

(** The ids held by the collection, in list order. *)
Definition ids (st : Store) : list Z := Incident.id <$> incidents st.

(** ** Handlers: state passing with exceptions *)

Definition Handler (A : Type) : Type := Store → Outcome A * Store.

Definition ret {A} (a : A) : Handler A := λ st, (Returns a, st).
Definition raise {A} (e : Exception) : Handler A := λ st, (Raises e, st).
Definition bind {A B} (m : Handler A) (k : A → Handler B) : Handler B :=
  λ st, match m st with
        | (Returns a, st') => k a st'
        | (Raises e, st') => (Raises e, st')
        end.
Definition lift {A} (o : Outcome A) : Handler A := λ st, (o, st).

Notation "'perform' x <- m ; k" := (bind m (λ x, k))
  (at level 10, x name, m at level 100, k at level 200,
   format "'[v' 'perform'  x  <-  m ; '/' k ']'").

(** ** Identifier allocator *)

(** [get_next_id]: increment the counter, return the new value. *)
Definition get_next_id : Handler Z :=
  λ st,
    let st' := {| incidents := incidents st; id_counter := id_counter st + 1 |} in
    (Returns (id_counter st'), st').

(** [n] calls in a row, with the values they return in call order. *)
Fixpoint calls {A} (n : nat) (m : Handler A) : Handler (list A) :=
  match n with
  | O => ret []
  | S n' => perform x <- m; perform xs <- calls n' m; ret (x :: xs)
  end.

(** ** Incident store *)

(** One filter of [get_incidents], [if param: [i for i in l if
    i[field].lower() == param.lower()]]: skipped when the parameter is
    false, otherwise the entries whose field equals the parameter once
    both are lowered, in the order of [l]. *)
Definition apply_filter (field : Incident.t → string) (param : option string)
    (l : list Incident.t) : list Incident.t :=
  if Py.truthy param
  then filter (λ i, Py.lower (field i) = Py.lower (default "" param)) l
  else l.

(** The local [filtered_incidents] of [get_incidents] after both filters. *)
Definition filtered_incidents (status severity : option string) (st : Store)
    : list Incident.t :=
  apply_filter Incident.severity severity
    (apply_filter Incident.status status (incidents st)).

(** GET /incidents *)
Definition get_incidents (status severity : option string) (page per_page : Z)
    : Handler PaginatedResponse.t :=
  λ st,
    let filtered := filtered_incidents status severity st in
    let total := Z.of_nat (length filtered) in
    let per_page := Z.min per_page 100 in
    match floordiv (total + per_page - 1) per_page with
    | Raises e => (Raises e, st)
    | Returns total_pages =>
        let start := (page - 1) * per_page in
        let stop := start + per_page in
        let paginated_incidents := Py.slice filtered start stop in
        (Returns {| PaginatedResponse.incidents := paginated_incidents;
                    PaginatedResponse.total := total;
                    PaginatedResponse.page := page;
                    PaginatedResponse.per_page := per_page;
                    PaginatedResponse.total_pages := total_pages |}, st)
    end.

(** The scan [for incident in incidents: if incident["id"] == incident_id]:
    position and value of the first entry with that id. *)
Definition find_incident (incident_id : Z) (l : list Incident.t)
    : option (nat * Incident.t) :=
  list_find (λ incident, Incident.id incident = incident_id) l.

(** GET /incidents/{incident_id} *)
Definition get_incident (incident_id : Z) : Handler Incident.t :=
  λ st,
    match find_incident incident_id (incidents st) with
    | Some (_, incident) => (Returns incident, st)
    | None => (Raises (HTTP_404_NOT_FOUND incident_id), st)
    end.

(** [incidents.append(new_incident)] *)
Definition append (new_incident : Incident.t) : Handler unit :=
  λ st,
    (Returns tt, {| incidents := incidents st ++ [new_incident];
                    id_counter := id_counter st |}).

(** POST /incidents *)
Definition create_incident (incident_data : IncidentCreate.t)
    : Handler Incident.t :=
  perform new_id <- get_next_id;
  let new_incident :=
    {| Incident.id := new_id;
       Incident.title := IncidentCreate.title incident_data;
       Incident.status := IncidentCreate.status incident_data;
       Incident.severity := IncidentCreate.severity incident_data |} in
  perform _ <- append new_incident;
  ret new_incident.

(** PATCH /incidents/{incident_id}: the entry found is changed in place
    and returned. *)
Definition update_incident (incident_id : Z) (update_data : IncidentUpdate.t)
    : Handler Incident.t :=
  λ st,
    match find_incident incident_id (incidents st) with
    | Some (i, incident) =>
        let incident' :=
          Incident.set_status (IncidentUpdate.status update_data) incident in
        (Returns incident',
         {| incidents := <[i := incident']> (incidents st);
            id_counter := id_counter st |})
    | None => (Raises (HTTP_404_NOT_FOUND incident_id), st)
    end.

(** DELETE /incidents/{incident_id}: [incidents.pop(i)] at the first
    position holding the id. *)
Definition delete_incident (incident_id : Z) : Handler Incident.t :=
  λ st,
    match find_incident incident_id (incidents st) with
    | Some (i, incident) =>
        (Returns incident,
         {| incidents := delete i (incidents st);
            id_counter := id_counter st |})
    | None => (Raises (HTTP_404_NOT_FOUND incident_id), st)
    end.

(** ** Transport: a request is validated, then handed to its handler *)

Inductive Request :=
| GET_incidents (status severity : option string) (page per_page : Z)
| GET_incident (incident_id : Z)
| POST_incidents (body : IncidentCreate.body)
| PATCH_incident (incident_id : Z) (body : IncidentUpdate.body)
| DELETE_incident (incident_id : Z).

Inductive Response :=
| Page (r : PaginatedResponse.t)
| Item (i : Incident.t).

Definition handle (rq : Request) : Handler Response :=
  match rq with
  | GET_incidents status severity page per_page =>
      perform r <- get_incidents status severity page per_page; ret (Page r)
  | GET_incident incident_id =>
      perform i <- get_incident incident_id; ret (Item i)
  | POST_incidents body =>
      perform incident_data <- lift (IncidentCreate.validate body);
      perform i <- create_incident incident_data; ret (Item i)
  | PATCH_incident incident_id body =>
      perform update_data <- lift (IncidentUpdate.validate body);
      perform i <- update_incident incident_id update_data; ret (Item i)
  | DELETE_incident incident_id =>
      perform i <- delete_incident incident_id; ret (Item i)
  end.

(** A sequence of requests served one after the other, with the outcome
    of each. *)
Fixpoint run (rqs : list Request) (st : Store)
    : list (Request * Outcome Response) * Store :=
  match rqs with
  | [] => ([], st)
  | rq :: rqs' =>
      let '(o, st') := handle rq st in
      let '(os, st'') := run rqs' st' in
      ((rq, o) :: os, st'')
  end.

(** The stores the service can be in: what a sequence of requests leaves
    of the seed. *)
Definition reachable (st : Store) : Prop :=
  ∃ rqs, (run rqs initial_store).2 = st.

(** The ids handed out by the successful POSTs of a trace, in order. *)
Fixpoint created_ids (tr : list (Request * Outcome Response)) : list Z :=
  match tr with
  | [] => []
  | (POST_incidents _, Returns (Item i)) :: tr' => Incident.id i :: created_ids tr'
  | _ :: tr' => created_ids tr'
  end.

(** The items of page [page], none when the request fails. *)
Definition page_items (status severity : option string) (per_page : Z)
    (st : Store) (page : Z) : list Incident.t :=
  match (get_incidents status severity page per_page st).1 with
  | Returns r => PaginatedResponse.incidents r
  | Raises _ => []
  end.

(** What every reachable store satisfies: the ids of the collection grow
    strictly along the list, and none is above the counter. *)
Definition store_inv (st : Store) : Prop :=
  StronglySorted Z.lt (ids st) ∧ Forall (λ i, i ≤ id_counter st) (ids st).

(** A handler fails with NotFound exactly when the id is absent from the
    collection, it fails in no other way, and a failure leaves the store
    as it was. *)
Definition not_found_iff_absent {A} (op : Handler A) (incident_id : Z)
    (st : Store) : Prop :=
  (∀ e, (op st).1 = Raises e ↔
        e = HTTP_404_NOT_FOUND incident_id ∧ incident_id ∉ ids st) ∧
  (∀ e, (op st).1 = Raises e → (op st).2 = st).

(** ** Authentication and monitoring *)

(** What [HTTPBearer] hands to [verify_token] when the request carries an
    Authorization header it can read. *)
Module HTTPAuthorizationCredentials.
Record t := mk { scheme : string; credentials : string }.
End HTTPAuthorizationCredentials.

Definition VALID_TOKENS : gmap string string :=
  {[ "demo-token-123" := "demo_user" ]}.

(** [verify_token]: no credentials, no user; otherwise
    [VALID_TOKENS.get(token)]. *)
Definition verify_token (credentials : option HTTPAuthorizationCredentials.t)
    : option string :=
  match credentials with
  | None => None
  | Some c => VALID_TOKENS !! HTTPAuthorizationCredentials.credentials c
  end.

Module HealthResponse.
Record t := mk { status : string; total_incidents : Z; api_version : string }.
End HealthResponse.

(** GET /health *)
Definition health_check : Handler HealthResponse.t :=
  λ st,
    (Returns {| HealthResponse.status := "healthy";
                HealthResponse.total_incidents := Z.of_nat (length (incidents st));
                HealthResponse.api_version := "2.0" |}, st).

(** The successful DELETEs of a trace. *)
Fixpoint deleted_count (tr : list (Request * Outcome Response)) : nat :=
  match tr with
  | [] => 0
  | (DELETE_incident _, Returns _) :: tr' => S (deleted_count tr')
  | _ :: tr' => deleted_count tr'
  end.

(** The requests that only read: the two GETs. *)
Definition is_read (rq : Request) : bool :=
  match rq with
  | GET_incidents _ _ _ _ | GET_incident _ => true
  | _ => false
  end.

(** * Properties *)

(** ** The Python primitives on small inputs *)

Example lower_OPEN : Py.lower "OPEN" = "open".
Proof. reflexivity. Qed.

Example lower_mixed : Py.lower "Under Investigation [2]" = "under investigation [2]".
Proof. reflexivity. Qed.

Example slice_second_page : Py.slice [1; 2; 3] 2 4 = [3].
Proof. reflexivity. Qed.

Example slice_page_zero : Py.slice [1; 2; 3] (-2) 0 = [].
Proof. reflexivity. Qed.

Example slice_negative_page : Py.slice [1; 2; 3] (-4) (-2) = [1].
Proof. reflexivity. Qed.

Example floordiv_negative : floordiv 1 (-1) = Returns (-1).
Proof. reflexivity. Qed.

(** The scenario of the test suite: create, update, delete, look up. *)
Example scenario :
  let tr := run [POST_incidents (IncidentCreate.mkBody (Some "X") None (Some "low"));
                 PATCH_incident 1 (IncidentUpdate.mkBody (Some "closed"));
                 DELETE_incident 2;
                 GET_incident 2] initial_store in
  tr.1.*2 = [Returns (Item (Incident.mk 4 "X" "open" "low"));
             Returns (Item (Incident.mk 1 "Phishing Email Campaign Detected"
                              "closed" "high"));
             Returns (Item (Incident.mk 2 "Malware Detected on Endpoint"
                              "closed" "medium"));
             Raises (HTTP_404_NOT_FOUND 2)] ∧
  ids tr.2 = [1; 3; 4].
Proof. by split. Qed.

(** ** The linear scan *)

Section scan.
Implicit Types (l : list Incident.t) (x : Incident.t).

Lemma find_incident_None incident_id l :
  find_incident incident_id l = None ↔ incident_id ∉ Incident.id <$> l.
Proof.
  unfold find_incident.
  rewrite list_find_None, Forall_forall, list_elem_of_fmap. split.
  - intros H (x & -> & Hx). by apply (H x).
  - intros H x Hx Hid. apply H. by exists x.
Qed.

Lemma find_incident_Some incident_id l i x :
  find_incident incident_id l = Some (i, x) ↔
  ∃ l1 l2, l = l1 ++ x :: l2 ∧ i = length l1 ∧
           Incident.id x = incident_id ∧ incident_id ∉ Incident.id <$> l1.
Proof.
  unfold find_incident. rewrite list_find_Some. split.
  - intros (Hi & Hx & Hlt). exists (take i l), (drop (S i) l).
    split; [by rewrite take_drop_middle|].
    split; [rewrite length_take_le; [done|]; apply lookup_lt_Some in Hi; lia|].
    split; [done|]. rewrite list_elem_of_fmap. intros (y & Hy & Hin).
    apply list_elem_of_lookup in Hin as [j Hj].
    apply lookup_take_Some in Hj as [Hj ?]. by apply (Hlt j y).
  - intros (l1 & l2 & -> & -> & Hx & Hl1). split_and!.
    + by rewrite list_lookup_middle.
    + done.
    + intros j y Hj Hlt Hy. apply Hl1. rewrite lookup_app_l in Hj by done.
      apply list_elem_of_fmap. exists y. split; [done|].
      by eapply list_elem_of_lookup_2.
Qed.

Lemma find_incident_elem_of incident_id l :
  incident_id ∈ Incident.id <$> l →
  ∃ i x, find_incident incident_id l = Some (i, x).
Proof.
  intros Hin. destruct (find_incident incident_id l) as [[i x]|] eqn:E; [eauto|].
  by apply find_incident_None in E.
Qed.
End scan.


Lemma calls_get_next_id n st :
  calls n get_next_id st =
    (Returns (seqZ (id_counter st + 1) (Z.of_nat n)),
     {| incidents := incidents st; id_counter := id_counter st + Z.of_nat n |}).
Proof.
  revert st. induction n as [|n IH]; intros st.
  - cbn. rewrite Z.add_0_r. by destruct st.
  - cbn [calls]. unfold bind at 1. cbn [get_next_id].
    unfold bind at 1. rewrite IH. cbn.
    rewrite (seqZ_cons (id_counter st + 1)) by lia.
    unfold ret.
    replace (Z.pred (Z.of_nat (S n))) with (Z.of_nat n) by lia.
    replace (id_counter st + 1 + Z.of_nat n)
      with (id_counter st + Z.of_nat (S n)) by lia.
    done.
Qed.

Lemma StronglySorted_seqZ m n : StronglySorted Z.lt (seqZ m n).
Proof.
  destruct (decide (n ≤ 0)) as [Hn|Hn]; [rewrite seqZ_nil by done; constructor|].
  rewrite <- (Z2Nat.id n) by lia. generalize (Z.to_nat n) as k. clear n Hn.
  intros k. revert m. induction k as [|k IH]; intros m.
  - rewrite seqZ_nil by done. constructor.
  - rewrite seqZ_cons by lia.
    replace (Z.pred (Z.of_nat (S k))) with (Z.of_nat k) by lia.
    constructor; [apply IH|]. apply Forall_seqZ. lia.
Qed.

(** C3. From the seed store (counter 3) the first call of the allocator
    returns 4; any [n] calls in a row return 4, 5, ..., 3+n with no value
    skipped, so the values are strictly increasing and all above the
    highest seed id. *)
Theorem get_next_id_contiguous :
  (get_next_id initial_store).1 = Returns 4 ∧
  Forall (λ i, i ≤ 3) (ids initial_store) ∧
  ∀ n : nat,
    ∃ rs, (calls n get_next_id initial_store).1 = Returns rs ∧
      rs = seqZ 4 (Z.of_nat n) ∧
      (∀ k : nat, (k < n)%nat → rs !! k = Some (4 + Z.of_nat k)) ∧
      StronglySorted Z.lt rs ∧
      Forall (λ r, Forall (λ i, i < r) (ids initial_store)) rs.
Proof.
  split; [done|]. split; [by repeat constructor|].
  intros n. eexists. rewrite calls_get_next_id. cbn. split; [done|].
  split; [done|]. split; [|split].
  - intros k Hk. apply lookup_seqZ. lia.
  - apply StronglySorted_seqZ.
  - apply Forall_forall. intros r Hr. apply elem_of_seqZ in Hr.
    repeat constructor; simpl; lia.
Qed.

(** ** What each handler does to the store *)

Section handlers.
Implicit Types (st : Store) (l : list Incident.t) (x : Incident.t).

Lemma get_incidents_state status severity page per_page st :
  (get_incidents status severity page per_page st).2 = st.
Proof. unfold get_incidents. by destruct (floordiv _ _). Qed.

Lemma get_incident_state incident_id st :
  (get_incident incident_id st).2 = st.
Proof.
  unfold get_incident. by destruct (find_incident _ _) as [[??]|].
Qed.

Lemma get_incident_found incident_id st l1 x l2 :
  incidents st = l1 ++ x :: l2 →
  Incident.id x = incident_id →
  incident_id ∉ Incident.id <$> l1 →
  get_incident incident_id st = (Returns x, st).
Proof.
  intros Hl Hx Hl1. unfold get_incident.
  by rewrite (proj2 (find_incident_Some incident_id _ (length l1) x))
    by eauto 10.
Qed.

Lemma get_incident_absent incident_id st :
  incident_id ∉ ids st →
  get_incident incident_id st = (Raises (HTTP_404_NOT_FOUND incident_id), st).
Proof.
  intros H. unfold get_incident.
  by rewrite (proj2 (find_incident_None incident_id _)).
Qed.

Lemma create_incident_spec incident_data st :
  let new_incident :=
    {| Incident.id := id_counter st + 1;
       Incident.title := IncidentCreate.title incident_data;
       Incident.status := IncidentCreate.status incident_data;
       Incident.severity := IncidentCreate.severity incident_data |} in
  create_incident incident_data st =
    (Returns new_incident,
     {| incidents := incidents st ++ [new_incident];
        id_counter := id_counter st + 1 |}).
Proof. reflexivity. Qed.

Lemma update_incident_found incident_id update_data st l1 x l2 :
  incidents st = l1 ++ x :: l2 →
  Incident.id x = incident_id →
  incident_id ∉ Incident.id <$> l1 →
  let x' := Incident.set_status (IncidentUpdate.status update_data) x in
  update_incident incident_id update_data st =
    (Returns x', {| incidents := l1 ++ x' :: l2; id_counter := id_counter st |}).
Proof.
  intros Hl Hx Hl1 x'. unfold update_incident.
  rewrite (proj2 (find_incident_Some incident_id _ (length l1) x))
    by eauto 10.
  rewrite Hl, insert_app_r_alt, Nat.sub_diag by done. done.
Qed.

Lemma update_incident_absent incident_id update_data st :
  incident_id ∉ ids st →
  update_incident incident_id update_data st =
    (Raises (HTTP_404_NOT_FOUND incident_id), st).
Proof.
  intros H. unfold update_incident.
  by rewrite (proj2 (find_incident_None incident_id _)).
Qed.

Lemma delete_incident_found incident_id st l1 x l2 :
  incidents st = l1 ++ x :: l2 →
  Incident.id x = incident_id →
  incident_id ∉ Incident.id <$> l1 →
  delete_incident incident_id st =
    (Returns x, {| incidents := l1 ++ l2; id_counter := id_counter st |}).
Proof.
  intros Hl Hx Hl1. unfold delete_incident.
  rewrite (proj2 (find_incident_Some incident_id _ (length l1) x))
    by eauto 10.
  by rewrite Hl, delete_middle.
Qed.

Lemma delete_incident_absent incident_id st :
  incident_id ∉ ids st →
  delete_incident incident_id st =
    (Raises (HTTP_404_NOT_FOUND incident_id), st).
Proof.
  intros H. unfold delete_incident.
  by rewrite (proj2 (find_incident_None incident_id _)).
Qed.

(** An id of the collection splits it around its first holder. *)
Lemma ids_split incident_id st :
  incident_id ∈ ids st →
  ∃ l1 x l2, incidents st = l1 ++ x :: l2 ∧ Incident.id x = incident_id ∧
             incident_id ∉ Incident.id <$> l1.
Proof.
  intros (i & x & H)%find_incident_elem_of.
  apply find_incident_Some in H as (l1 & l2 & ? & ? & ? & ?). eauto 10.
Qed.
End handlers.

(** ** The invariant of the store *)

Lemma StronglySorted_lt_NoDup (l : list Z) : StronglySorted Z.lt l → NoDup l.
Proof.
  induction 1 as [|x l _ IH Hx]; constructor; [|done].
  intros Hin. rewrite Forall_forall in Hx. specialize (Hx x Hin). lia.
Qed.

Lemma store_inv_NoDup st : store_inv st → NoDup (ids st).
Proof. intros [H _]. by apply StronglySorted_lt_NoDup. Qed.

Lemma store_inv_initial : store_inv initial_store.
Proof.
  split; cbn.
  - repeat constructor; lia.
  - repeat constructor; lia.
Qed.

Lemma store_inv_create incident_data st :
  store_inv st → store_inv (create_incident incident_data st).2.
Proof.
  intros [Hs Hb]. rewrite create_incident_spec. unfold store_inv, ids. cbn.
  rewrite fmap_app. cbn. split.
  - apply StronglySorted_app_2; [|done|repeat constructor].
    intros i j Hi ->%list_elem_of_singleton.
    rewrite Forall_forall in Hb. specialize (Hb i Hi). lia.
  - apply Forall_app. split; [|repeat constructor; lia].
    eapply Forall_impl; [exact Hb|]. cbn. intros; lia.
Qed.

Lemma store_inv_update incident_id update_data st :
  store_inv st → store_inv (update_incident incident_id update_data st).2.
Proof.
  intros Hinv. destruct (decide (incident_id ∈ ids st)) as [Hin|Hin].
  - destruct (ids_split _ _ Hin) as (l1 & x & l2 & Hl & Hx & Hl1).
    rewrite (update_incident_found _ _ _ _ _ _ Hl Hx Hl1).
    revert Hinv. unfold store_inv, ids. cbn. rewrite Hl, !fmap_app. done.
  - by rewrite update_incident_absent.
Qed.

Lemma store_inv_delete incident_id st :
  store_inv st → store_inv (delete_incident incident_id st).2.
Proof.
  intros Hinv. destruct (decide (incident_id ∈ ids st)) as [Hin|Hin].
  - destruct (ids_split _ _ Hin) as (l1 & x & l2 & Hl & Hx & Hl1).
    rewrite (delete_incident_found _ _ _ _ _ Hl Hx Hl1).
    revert Hinv. unfold store_inv, ids. cbn. rewrite Hl, !fmap_app, fmap_cons.
    rewrite !StronglySorted_app, !Forall_app, StronglySorted_cons, Forall_cons.
    intros [(H12 & H1 & _ & H2) (? & _ & ?)]. split_and!; [|done..].
    intros i j Hi Hj. apply H12; [done|]. by apply list_elem_of_further.
  - by rewrite delete_incident_absent.
Qed.

Lemma store_inv_handle rq st : store_inv st → store_inv (handle rq st).2.
Proof.
  intros Hinv. destruct rq as [s v p pp|i|b|i b|i]; unfold handle, bind, lift.
  - pose proof (get_incidents_state s v p pp st) as E.
    destruct (get_incidents s v p pp st) as [[r|e] st']; cbn in *; by subst.
  - pose proof (get_incident_state i st) as E.
    destruct (get_incident i st) as [[r|e] st']; cbn in *; by subst.
  - destruct (IncidentCreate.validate b) as [d|e]; [|done].
    pose proof (store_inv_create d st Hinv) as E.
    by destruct (create_incident d st) as [[r|e] st'].
  - destruct (IncidentUpdate.validate b) as [d|e]; [|done].
    pose proof (store_inv_update i d st Hinv) as E.
    by destruct (update_incident i d st) as [[r|e] st'].
  - pose proof (store_inv_delete i st Hinv) as E.
    by destruct (delete_incident i st) as [[r|e] st'].
Qed.

Lemma run_cons rq rqs st :
  run (rq :: rqs) st =
    (((rq, (handle rq st).1) :: (run rqs (handle rq st).2).1),
     (run rqs (handle rq st).2).2).
Proof.
  cbn. destruct (handle rq st) as [o st']. cbn.
  by destruct (run rqs st') as [os st''].
Qed.

Lemma store_inv_run rqs st : store_inv st → store_inv (run rqs st).2.
Proof.
  revert st. induction rqs as [|rq rqs IH]; intros st Hinv; [done|].
  rewrite run_cons. cbn. by apply IH, store_inv_handle.
Qed.

Lemma reachable_inv st : reachable st → store_inv st.
Proof. intros [rqs <-]. apply store_inv_run, store_inv_initial. Qed.

Lemma reachable_initial : reachable initial_store.
Proof. by exists []. Qed.

Lemma reachable_handle rq st : reachable st → reachable (handle rq st).2.
Proof.
  intros [rqs <-]. exists (rqs ++ [rq]).
  generalize initial_store. induction rqs as [|r rqs IH]; intros st.
  - cbn. by destruct (handle rq st).
  - rewrite <- app_comm_cons, !run_cons. cbn. apply IH.
Qed.

(** ** Ids handed out along a trace *)

Lemma created_ids_cons rq o tr :
  created_ids ((rq, o) :: tr) = created_ids [(rq, o)] ++ created_ids tr.
Proof. destruct rq; try done. destruct o as [[r|i]|e]; done. Qed.

Lemma handle_effect rq st :
  let o := (handle rq st).1 in
  let st' := (handle rq st).2 in
  (created_ids [(rq, o)] = [id_counter st + 1] ∧
   id_counter st' = id_counter st + 1 ∧
   ids st' = ids st ++ [id_counter st + 1]) ∨
  (created_ids [(rq, o)] = [] ∧
   id_counter st' = id_counter st ∧
   ids st' `sublist_of` ids st).
Proof.
  destruct rq as [s v p pp|i|b|i b|i]; cbn zeta; unfold handle, bind, lift.
  - right. pose proof (get_incidents_state s v p pp st) as E.
    destruct (get_incidents s v p pp st) as [[r|e] st']; cbn in *; by subst.
  - right. pose proof (get_incident_state i st) as E.
    destruct (get_incident i st) as [[r|e] st']; cbn in *; by subst.
  - destruct (IncidentCreate.validate b) as [d|e]; [|by right].
    left. rewrite create_incident_spec. cbn. split_and!; [done..|].
    unfold ids. cbn. by rewrite fmap_app.
  - right. destruct (IncidentUpdate.validate b) as [d|e]; [|done].
    destruct (decide (i ∈ ids st)) as [Hin|Hin].
    + destruct (ids_split _ _ Hin) as (l1 & x & l2 & Hl & Hx & Hl1).
      rewrite (update_incident_found _ _ _ _ _ _ Hl Hx Hl1). cbn.
      split_and!; [done..|]. unfold ids. cbn. by rewrite Hl, !fmap_app.
    + by rewrite update_incident_absent.
  - right. destruct (decide (i ∈ ids st)) as [Hin|Hin].
    + destruct (ids_split _ _ Hin) as (l1 & x & l2 & Hl & Hx & Hl1).
      rewrite (delete_incident_found _ _ _ _ _ Hl Hx Hl1). cbn.
      split_and!; [done..|]. unfold ids. cbn. rewrite Hl, !fmap_app.
      apply sublist_app; [done|]. by apply sublist_cons.
    + by rewrite delete_incident_absent.
Qed.

Lemma run_issued rqs st :
  ∃ n : nat,
    created_ids (run rqs st).1 = seqZ (id_counter st + 1) (Z.of_nat n) ∧
    id_counter (run rqs st).2 = id_counter st + Z.of_nat n ∧
    ids (run rqs st).2 `sublist_of` ids st ++ created_ids (run rqs st).1.
Proof.
  revert st. induction rqs as [|rq rqs IH]; intros st.
  - exists 0%nat. cbn. rewrite Z.add_0_r, app_nil_r. done.
  - rewrite run_cons. cbn [fst snd]. rewrite created_ids_cons.
    destruct (IH (handle rq st).2) as (n & Hc & Hn & Hs).
    destruct (handle_effect rq st) as [(Ec & En & Ei)|(Ec & En & Ei)].
    + exists (S n). rewrite Ec, Hc, Hn, En. split_and!.
      * rewrite (seqZ_cons (id_counter st + 1)) by lia. cbn.
        do 2 f_equal; lia.
      * lia.
      * rewrite Ei, Hc, En in Hs. by rewrite <- app_assoc in Hs.
    + exists n. rewrite Ec, Hc, Hn, En. split_and!; [done..|].
      etrans; [exact Hs|]. rewrite Hc, En. by apply sublist_app.
Qed.

(** ** Lookup, update and delete by id *)

Lemma not_found_iff_absent_intro {A} (op : Handler A) incident_id st :
  (incident_id ∉ ids st →
   op st = (Raises (HTTP_404_NOT_FOUND incident_id), st)) →
  (incident_id ∈ ids st → ∃ x st', op st = (Returns x, st')) →
  not_found_iff_absent op incident_id st.
Proof.
  intros Habs Hpres. unfold not_found_iff_absent.
  destruct (decide (incident_id ∈ ids st)) as [Hin|Hin].
  - destruct (Hpres Hin) as (x & st' & ->). split; cbn.
    + intros e. split; [done|]. by intros [_ ?].
    + done.
  - rewrite (Habs Hin). split; cbn.
    + intros e. split; [by intros [= <-]|]. by intros [-> _].
    + done.
Qed.

(** C7. In a reachable store, [get_incident], [update_incident] and
    [delete_incident] fail with NotFound exactly when no incident of the
    collection has the id, and the failure leaves the store unchanged; a
    successful delete returns the incident it removed, and a lookup of
    that id right after fails with NotFound. *)
Theorem not_found_exactly_when_absent st incident_id update_data :
  reachable st →
  not_found_iff_absent (get_incident incident_id) incident_id st ∧
  not_found_iff_absent (update_incident incident_id update_data) incident_id st ∧
  not_found_iff_absent (delete_incident incident_id) incident_id st ∧
  ∀ x st', delete_incident incident_id st = (Returns x, st') →
    x ∈ incidents st ∧ Incident.id x = incident_id ∧
    (incident_id ∉ ids st') ∧
    get_incident incident_id st' =
      (Raises (HTTP_404_NOT_FOUND incident_id), st').
Proof.
  intros Hr. split_and!.
  - apply not_found_iff_absent_intro; [apply get_incident_absent|].
    intros (l1 & x & l2 & Hl & Hx & Hl1)%ids_split.
    rewrite (get_incident_found _ _ _ _ _ Hl Hx Hl1). eauto.
  - apply not_found_iff_absent_intro; [apply update_incident_absent|].
    intros (l1 & x & l2 & Hl & Hx & Hl1)%ids_split.
    rewrite (update_incident_found _ _ _ _ _ _ Hl Hx Hl1). eauto.
  - apply not_found_iff_absent_intro; [apply delete_incident_absent|].
    intros (l1 & x & l2 & Hl & Hx & Hl1)%ids_split.
    rewrite (delete_incident_found _ _ _ _ _ Hl Hx Hl1). eauto.
  - intros x st' Hd.
    destruct (decide (incident_id ∈ ids st)) as [Hin|Hin];
      [|by rewrite delete_incident_absent in Hd].
    destruct (ids_split _ _ Hin) as (l1 & x0 & l2 & Hl & Hx & Hl1).
    rewrite (delete_incident_found _ _ _ _ _ Hl Hx Hl1) in Hd.
    injection Hd as -> <-.
    assert (incident_id ∉ Incident.id <$> l1 ++ l2) as Hgone.
    { apply reachable_inv, store_inv_NoDup in Hr. unfold ids in Hr.
      rewrite Hl, fmap_app, fmap_cons, Hx in Hr.
      apply NoDup_app in Hr as (_ & _ & [H2 _]%NoDup_cons).
      rewrite fmap_app. apply not_elem_of_app. done. }
    split_and!; [|done|done|by apply get_incident_absent].
    rewrite Hl. apply elem_of_app. right. by left.
Qed.

Lemma not_found_exactly_when_absent_witness :
  reachable initial_store ∧
  (delete_incident 2 initial_store).1 =
    Returns (Incident.mk 2 "Malware Detected on Endpoint" "closed" "medium") ∧
  get_incident 2 (delete_incident 2 initial_store).2 =
    (Raises (HTTP_404_NOT_FOUND 2), (delete_incident 2 initial_store).2) ∧
  not_found_iff_absent (get_incident 2) 2 initial_store.
Proof.
  split; [apply reachable_initial|]. split; [reflexivity|].
  destruct (not_found_exactly_when_absent initial_store 2
              (IncidentUpdate.mk "closed") reachable_initial)
    as (Hg & _ & _ & Hd).
  split; [|exact Hg]. by eapply Hd.
Defined.

(** C6. In a reachable store, a POST with a title [T], a severity [V] and
    no status takes the next id of the allocator, an id no incident of
    the collection holds, appends the new incident at the end of the
    collection and returns it; a lookup of that id right after returns
    the incident, with status ["open"], title [T] and severity [V]. *)
Theorem create_get_round_trip st T V :
  reachable st →
  let body := IncidentCreate.mkBody (Some T) None (Some V) in
  let new_incident := Incident.mk (id_counter st + 1) T "open" V in
  let st' := {| incidents := incidents st ++ [new_incident];
                id_counter := id_counter st + 1 |} in
  (get_next_id st).1 = Returns (Incident.id new_incident) ∧
  (Incident.id new_incident ∉ ids st) ∧
  handle (POST_incidents body) st = (Returns (Item new_incident), st') ∧
  get_incident (Incident.id new_incident) st' = (Returns new_incident, st').
Proof.
  intros Hr body new_incident st'.
  assert (Incident.id new_incident ∉ ids st) as Hfresh.
  { apply reachable_inv in Hr as [_ Hb]. rewrite Forall_forall in Hb.
    intros Hin. specialize (Hb _ Hin). cbn in Hb. lia. }
  split_and!; [done|done|done|].
  by apply (get_incident_found _ st' (incidents st) new_incident []).
Qed.

Lemma create_get_round_trip_witness :
  reachable initial_store ∧
  ∃ st',
    handle (POST_incidents (IncidentCreate.mkBody (Some "T") None (Some "high")))
      initial_store = (Returns (Item (Incident.mk 4 "T" "open" "high")), st') ∧
    get_incident 4 st' = (Returns (Incident.mk 4 "T" "open" "high"), st').
Proof.
  split; [apply reachable_initial|].
  destruct (create_get_round_trip initial_store "T" "high" reachable_initial)
    as (_ & _ & Hc & Hg).
  eexists. split; [exact Hc|exact Hg].
Defined.

(** C8. When the collection holds the id, [update_incident] replaces the
    status of the first incident with that id and returns the updated
    incident: its id, title and severity are as before, the incidents
    before and after it are untouched, and the length and the order of
    the collection (and the counter) are as before. *)
Theorem update_incident_frame st incident_id update_data :
  incident_id ∈ ids st →
  ∃ l1 x l2,
    incidents st = l1 ++ x :: l2 ∧
    Incident.id x = incident_id ∧
    (incident_id ∉ Incident.id <$> l1) ∧
    let x' := Incident.mk (Incident.id x) (Incident.title x)
                (IncidentUpdate.status update_data) (Incident.severity x) in
    let st' := (update_incident incident_id update_data st).2 in
    (update_incident incident_id update_data st).1 = Returns x' ∧
    incidents st' = l1 ++ x' :: l2 ∧
    id_counter st' = id_counter st ∧
    length (incidents st') = length (incidents st) ∧
    ids st' = ids st ∧
    ∀ j y, j ≠ length l1 → incidents st !! j = Some y →
           incidents st' !! j = Some y.
Proof.
  intros (l1 & x & l2 & Hl & Hx & Hl1)%ids_split.
  exists l1, x, l2. split_and!; [done..|]. cbn zeta.
  rewrite (update_incident_found _ update_data _ _ _ _ Hl Hx Hl1). cbn.
  split_and!; [done..| | |].
  - rewrite Hl, !length_app. done.
  - unfold ids. cbn. by rewrite Hl, !fmap_app.
  - intros j y Hj. rewrite Hl.
    destruct (decide (j < length l1)%nat).
    + by rewrite !lookup_app_l.
    + rewrite !lookup_app_r by lia.
      destruct (j - length l1)%nat as [|k] eqn:E; [lia|done].
Qed.

Lemma update_incident_frame_witness :
  1 ∈ ids initial_store ∧
  update_incident 1 (IncidentUpdate.mk "closed") initial_store =
    (Returns (Incident.mk 1 "Phishing Email Campaign Detected" "closed" "high"),
     {| incidents :=
          Incident.mk 1 "Phishing Email Campaign Detected" "closed" "high"
            :: drop 1 initial_incidents;
        id_counter := 3 |}) ∧
  ∃ l1 x l2, incidents initial_store = l1 ++ x :: l2 ∧ Incident.id x = 1.
Proof.
  assert (1 ∈ ids initial_store) as Hin by (cbn; left).
  split; [exact Hin|]. split; [reflexivity|].
  destruct (update_incident_frame initial_store 1 (IncidentUpdate.mk "closed") Hin)
    as (l1 & x & l2 & Hl & Hx & _).
  by exists l1, x, l2.
Defined.

(** ** Invariants over sequences of requests *)

Lemma update_incident_ids incident_id update_data st :
  ids (update_incident incident_id update_data st).2 = ids st ∧
  length (incidents (update_incident incident_id update_data st).2) =
    length (incidents st).
Proof.
  destruct (decide (incident_id ∈ ids st)) as [Hin|Hin].
  - destruct (ids_split _ _ Hin) as (l1 & x & l2 & Hl & Hx & Hl1).
    rewrite (update_incident_found _ _ _ _ _ _ Hl Hx Hl1). unfold ids. cbn.
    by rewrite Hl, !fmap_app, !length_app.
  - by rewrite update_incident_absent.
Qed.

(** C9. After any sequence of requests served from the seed store: the
    ids of the collection are pairwise distinct; the ids issued so far
    (the seed ids, then the ids returned by the successful creates, in
    order) are exactly 1, 2, ..., [id_counter], so none was issued twice,
    and the id a further create returns is none of them, whether its
    incident was deleted or not; the collection lists its incidents in
    the order they were issued; a create appends at the end, an update
    keeps the ids, their order and the length, and a successful delete
    removes the one element it returns and leaves the others in place. *)
Theorem store_invariant rqs :
  let tr := (run rqs initial_store).1 in
  let st := (run rqs initial_store).2 in
  let issued := ids initial_store ++ created_ids tr in
  NoDup (ids st) ∧
  issued = seqZ 1 (id_counter st) ∧
  NoDup issued ∧
  ids st `sublist_of` issued ∧
  StronglySorted Z.lt (ids st) ∧
  (∀ b x st', handle (POST_incidents b) st = (Returns (Item x), st') →
     (Incident.id x ∉ issued) ∧ incidents st' = incidents st ++ [x]) ∧
  (∀ i b x st', handle (PATCH_incident i b) st = (Returns (Item x), st') →
     ids st' = ids st ∧ length (incidents st') = length (incidents st)) ∧
  (∀ i x st', handle (DELETE_incident i) st = (Returns (Item x), st') →
     ∃ l1 l2, incidents st = l1 ++ x :: l2 ∧ incidents st' = l1 ++ l2).
Proof.
  intros tr st issued.
  assert (store_inv st) as Hinv by apply store_inv_run, store_inv_initial.
  destruct (run_issued rqs initial_store) as (n & Hc & Hn & Hs).
  fold tr in Hc, Hs. fold st in Hn, Hs. fold issued in Hs.
  assert (issued = seqZ 1 (id_counter st)) as Hissued.
  { unfold issued. rewrite Hc, Hn. cbn [initial_store id_counter].
    by rewrite (seqZ_app 1 3 (Z.of_nat n)) by lia. }
  split_and!.
  - by apply store_inv_NoDup.
  - done.
  - rewrite Hissued. apply NoDup_seqZ.
  - done.
  - apply Hinv.
  - intros b x st' H. unfold handle, bind, lift in H.
    destruct (IncidentCreate.validate b) as [d|e]; [|done].
    rewrite create_incident_spec in H. cbn in H. injection H as <- <-.
    split; [|done]. rewrite Hissued, elem_of_seqZ. cbn. lia.
  - intros i b x st' H. unfold handle, bind, lift in H.
    destruct (IncidentUpdate.validate b) as [d|e]; [|done].
    pose proof (update_incident_ids i d st) as E.
    destruct (update_incident i d st) as [[y|e] st1]; [|done].
    by injection H as _ <-.
  - intros i x st' H. unfold handle, bind in H.
    destruct (decide (i ∈ ids st)) as [Hin|Hin];
      [|by rewrite delete_incident_absent in H].
    destruct (ids_split _ _ Hin) as (l1 & x0 & l2 & Hl & Hx & Hl1).
    rewrite (delete_incident_found _ _ _ _ _ Hl Hx Hl1) in H. cbn in H.
    injection H as <- <-. by exists l1, l2.
Qed.

Lemma store_invariant_witness :
  let rqs := [POST_incidents (IncidentCreate.mkBody (Some "X") None (Some "low"));
              DELETE_incident 4] in
  ids (run rqs initial_store).2 = [1; 2; 3] ∧
  created_ids (run rqs initial_store).1 = [4] ∧
  ∀ b x st',
    handle (POST_incidents b) (run rqs initial_store).2 = (Returns (Item x), st') →
    Incident.id x ∉ [1; 2; 3; 4].
Proof.
  intros rqs. split; [reflexivity|]. split; [reflexivity|].
  intros b x st' H.
  destruct (store_invariant rqs) as (_ & _ & _ & _ & _ & Hp & _).
  by destruct (Hp b x st' H) as [Hx _].
Defined.

(** ** Filtering *)

Lemma apply_filter_None field l : apply_filter field None l = l.
Proof. reflexivity. Qed.

Lemma apply_filter_empty field l : apply_filter field (Some "") l = l.
Proof. reflexivity. Qed.

Lemma apply_filter_nonempty field s l :
  s ≠ "" →
  apply_filter field (Some s) l =
    filter (λ i, Py.lower (field i) = Py.lower s) l.
Proof. intros Hs. unfold apply_filter, Py.truthy. by rewrite bool_decide_true. Qed.

Lemma apply_filter_sublist field param l :
  apply_filter field param l `sublist_of` l.
Proof.
  unfold apply_filter. destruct (Py.truthy _); [apply sublist_filter|done].
Qed.

(** C10. An empty filter text is no filter: [get_incidents] with the
    empty text for [status] gives what it gives with no [status] at all
    (so the whole collection passes, not the incidents with an empty
    status), and likewise for [severity]. *)
Theorem empty_filter_is_no_filter st status severity page per_page :
  get_incidents (Some "") severity page per_page st =
    get_incidents None severity page per_page st ∧
  get_incidents status (Some "") page per_page st =
    get_incidents status None page per_page st ∧
  filtered_incidents (Some "") None st = incidents st ∧
  filtered_incidents None (Some "") st = incidents st.
Proof. done. Qed.

(** ** Slices and pages *)

Lemma slice_window {A} (l : list A) (start n : Z) :
  0 ≤ start → 0 ≤ n →
  Py.slice l start (start + n) = take (Z.to_nat n) (drop (Z.to_nat start) l).
Proof.
  intros Hs Hn. unfold Py.slice, Py.adjust_index.
  rewrite !decide_False by lia.
  destruct (decide (Z.of_nat (length l) ≤ start)) as [Hge|Hlt].
  - rewrite (Z.min_r start), (Z.min_r (start + n)) by lia.
    rewrite Z.sub_diag, !drop_ge by lia. by rewrite !take_nil.
  - rewrite (Z.min_l start) by lia.
    destruct (decide (start + n ≤ Z.of_nat (length l))) as [Hle|Hgt].
    + rewrite Z.min_l by lia. do 2 f_equal. lia.
    + rewrite Z.min_r by lia.
      rewrite !take_ge; [done|rewrite length_drop; lia..].
Qed.

Lemma concat_windows {A} (l : list A) (n : nat) (k : nat) :
  concat ((λ p : Z, take n (drop (Z.to_nat ((p - 1) * Z.of_nat n)) l))
            <$> seqZ 1 (Z.of_nat k)) = take (k * n) l.
Proof.
  induction k as [|k IH]; [done|].
  rewrite seqZ_S, fmap_app, concat_app, IH. cbn. rewrite app_nil_r.
  replace (Z.to_nat ((1 + Z.of_nat k - 1) * Z.of_nat n)) with (k * n)%nat by lia.
  rewrite take_take_drop. f_equal. lia.
Qed.

(** The quotient computed for [total_pages] is the ceiling of
    [total / per_page] when [per_page] is positive. *)
Lemma ceiling_div total per_page :
  0 < per_page →
  let total_pages := (total + per_page - 1) `div` per_page in
  (total_pages - 1) * per_page < total ≤ total_pages * per_page.
Proof.
  intros Hp total_pages.
  pose proof (Z.mul_div_le (total + per_page - 1) per_page Hp).
  pose proof (Z.mul_succ_div_gt (total + per_page - 1) per_page Hp).
  fold total_pages in H, H0. lia.
Qed.

(** ** The list operation *)

Lemma get_incidents_returns status severity page per_page st :
  per_page ≠ 0 →
  let filtered := filtered_incidents status severity st in
  let total := Z.of_nat (length filtered) in
  let per_page' := Z.min per_page 100 in
  get_incidents status severity page per_page st =
    (Returns
       {| PaginatedResponse.incidents :=
            Py.slice filtered ((page - 1) * per_page')
              ((page - 1) * per_page' + per_page');
          PaginatedResponse.total := total;
          PaginatedResponse.page := page;
          PaginatedResponse.per_page := per_page';
          PaginatedResponse.total_pages :=
            (total + per_page' - 1) `div` per_page' |}, st).
Proof.
  intros Hp. cbn zeta. unfold get_incidents, floordiv.
  by rewrite decide_False by lia.
Qed.

(** C1, at the input where it fails: with [per_page = 0] the division
    that computes [total_pages] raises, whatever the store, the filters
    and the page, so the request does not complete. *)
Theorem get_incidents_per_page_zero st status severity page :
  get_incidents status severity page 0 st = (Raises ZeroDivisionError, st) ∧
  handle (GET_incidents status severity page 0) st =
    (Raises ZeroDivisionError, st).
Proof. done. Qed.

(** C4. For a non-empty filter text [S], the status filter keeps exactly
    the incidents whose status equals [S] once both are lowered, in the
    order of the collection; the severity filter does the same on the
    severity; both together keep the incidents that pass both.  What
    [get_incidents] returns is cut out of that filtered list, and is the
    whole of it when it fits on the first page. *)
Theorem filter_correct st S V :
  S ≠ "" → V ≠ "" →
  filtered_incidents (Some S) None st =
    filter (λ i, Py.lower (Incident.status i) = Py.lower S) (incidents st) ∧
  filtered_incidents None (Some V) st =
    filter (λ i, Py.lower (Incident.severity i) = Py.lower V) (incidents st) ∧
  filtered_incidents (Some S) (Some V) st =
    filter (λ i, Py.lower (Incident.status i) = Py.lower S ∧
                 Py.lower (Incident.severity i) = Py.lower V) (incidents st) ∧
  (∀ i, i ∈ filtered_incidents (Some S) None st ↔
        i ∈ incidents st ∧ Py.lower (Incident.status i) = Py.lower S) ∧
  filtered_incidents (Some S) None st `sublist_of` incidents st ∧
  ∀ status severity per_page,
    1 ≤ per_page →
    Z.of_nat (length (filtered_incidents status severity st)) ≤ Z.min per_page 100 →
    ∃ r, (get_incidents status severity 1 per_page st).1 = Returns r ∧
         PaginatedResponse.incidents r = filtered_incidents status severity st.
Proof.
  intros HS HV. unfold filtered_incidents.
  rewrite !apply_filter_nonempty, !apply_filter_None by done.
  split_and!; [done|done| | | |].
  - rewrite list_filter_filter. apply list_filter_iff. tauto.
  - intros i. rewrite list_elem_of_filter. tauto.
  - apply sublist_filter.
  - intros status severity per_page Hp Hlen.
    rewrite get_incidents_returns by lia. eexists. split; [done|]. cbn.
    rewrite Z.mul_0_l. rewrite (slice_window _ 0) by lia.
    cbn. apply take_ge. lia.
Qed.

Lemma filter_correct_witness :
  "OPEN" ≠ "" ∧ "HIGH" ≠ "" ∧
  filtered_incidents (Some "OPEN") (Some "HIGH") initial_store =
    [Incident.mk 1 "Phishing Email Campaign Detected" "open" "high"] ∧
  filtered_incidents (Some "OPEN") (Some "HIGH") initial_store =
    filter (λ i, Py.lower (Incident.status i) = Py.lower "OPEN" ∧
                 Py.lower (Incident.severity i) = Py.lower "HIGH")
      (incidents initial_store).
Proof.
  assert ("OPEN" ≠ "") as HS by discriminate.
  assert ("HIGH" ≠ "") as HV by discriminate.
  split; [exact HS|]. split; [exact HV|]. split; [reflexivity|].
  by destruct (filter_correct initial_store "OPEN" "HIGH" HS HV)
    as (_ & _ & H & _).
Defined.

Lemma page_items_window status severity per_page st page :
  1 ≤ per_page ≤ 100 → 1 ≤ page →
  page_items status severity per_page st page =
    take (Z.to_nat per_page)
      (drop (Z.to_nat ((page - 1) * Z.of_nat (Z.to_nat per_page)))
         (filtered_incidents status severity st)).
Proof.
  intros Hp Hpage. unfold page_items.
  rewrite get_incidents_returns by lia. cbn.
  rewrite Z.min_l, Z2Nat.id by lia. apply slice_window; nia.
Qed.

(** C5, with the ceiling kept to a positive page size.  Whenever
    [per_page] is not zero the metadata report [min per_page 100] as
    [per_page] (100 for a request of 1000) and the length of the filtered
    list as [total]; for [per_page >= 1], [total_pages] is the ceiling of
    [total / min per_page 100], which is 0 when [total] is 0; for
    [1 <= per_page <= 100] the pages 1 to [total_pages], one after the
    other, are the filtered list. *)
Theorem pagination_metadata st status severity page per_page :
  let filtered := filtered_incidents status severity st in
  let total := Z.of_nat (length filtered) in
  let o := (get_incidents status severity page per_page st).1 in
  (per_page ≠ 0 →
   ∃ r, o = Returns r ∧
        PaginatedResponse.per_page r = Z.min per_page 100 ∧
        PaginatedResponse.total r = total) ∧
  (per_page = 1000 → ∃ r, o = Returns r ∧ PaginatedResponse.per_page r = 100) ∧
  (1 ≤ per_page →
   ∃ r, o = Returns r ∧
        let pp := PaginatedResponse.per_page r in
        let tp := PaginatedResponse.total_pages r in
        (tp - 1) * pp < total ≤ tp * pp ∧ (total = 0 → tp = 0)) ∧
  (1 ≤ per_page ≤ 100 →
   ∃ total_pages,
     (∀ p, ∃ r, (get_incidents status severity p per_page st).1 = Returns r ∧
                PaginatedResponse.total_pages r = total_pages) ∧
     concat (page_items status severity per_page st <$> seqZ 1 total_pages)
       = filtered).
Proof.
  intros filtered total o. subst o. split_and!.
  - intros Hp. rewrite get_incidents_returns by done. eexists. by split.
  - intros ->. rewrite get_incidents_returns by done. eexists. by split.
  - intros Hp. rewrite get_incidents_returns by lia. eexists. split; [done|].
    cbn. fold filtered. fold total.
    pose proof (ceiling_div total (Z.min per_page 100) ltac:(lia)) as Hc.
    cbn zeta in Hc. split; [exact Hc|]. intros Ht. nia.
  - intros Hp.
    exists ((total + per_page - 1) `div` per_page). split.
    + intros p. rewrite get_incidents_returns by lia. eexists. split; [done|].
      cbn. fold filtered. fold total. by rewrite Z.min_l by lia.
    + pose proof (ceiling_div total per_page ltac:(lia)) as Hc.
      cbn zeta in Hc. set (tp := (total + per_page - 1) `div` per_page) in *.
      assert (0 ≤ tp) as Htp by nia.
      rewrite (Forall_fmap_ext_1 _
                 (λ p : Z, take (Z.to_nat per_page)
                    (drop (Z.to_nat ((p - 1) * Z.of_nat (Z.to_nat per_page)))
                       filtered))).
      2:{ apply Forall_seqZ. intros p Hrange.
          apply page_items_window; lia. }
      rewrite <- (Z2Nat.id tp) by done. rewrite concat_windows.
      apply take_ge. unfold total in Hc. nia.
Qed.

Lemma pagination_metadata_witness :
  1 ≤ 2 ≤ 100 ∧
  (get_incidents None None 1 2 initial_store).1 =
    Returns (PaginatedResponse.mk (take 2 initial_incidents) 3 1 2 2) ∧
  ∃ total_pages,
    concat (page_items None None 2 initial_store <$> seqZ 1 total_pages)
      = initial_incidents.
Proof.
  assert (1 ≤ 2 ≤ 100) as Hp by lia.
  split; [exact Hp|]. split; [reflexivity|].
  destruct (pagination_metadata initial_store None None 1 2)
    as (_ & _ & _ & Hcat).
  destruct (Hcat Hp) as (tp & _ & Htp). by exists tp.
Defined.

(** With a negative [per_page] the quotient is no ceiling: on the seed
    store, a filter that keeps nothing and [per_page = -1] give a
    [total] of 0 next to a [total_pages] of 2. *)
Lemma total_pages_negative_per_page :
  ∃ r, (get_incidents (Some "resolved") None 1 (-1) initial_store).1 = Returns r ∧
       PaginatedResponse.per_page r = Z.min (-1) 100 ∧
       PaginatedResponse.total r = 0 ∧
       PaginatedResponse.total_pages r = 2 ∧
       PaginatedResponse.total_pages r ≠ 0.
Proof. eexists. by split_and!. Qed.

(** ** Validation of the request bodies *)

Lemma handle_post body st :
  handle (POST_incidents body) st =
    match IncidentCreate.validate body with
    | Returns d =>
        ((Item <$> (create_incident d st).1), (create_incident d st).2)
    | Raises e => (Raises e, st)
    end.
Proof.
  unfold handle, bind, lift.
  by destruct (IncidentCreate.validate body) as [d|e].
Qed.

Lemma handle_patch incident_id body st :
  handle (PATCH_incident incident_id body) st =
    match IncidentUpdate.validate body with
    | Returns d =>
        ((Item <$> (update_incident incident_id d st).1),
         (update_incident incident_id d st).2)
    | Raises e => (Raises e, st)
    end.
Proof.
  unfold handle, bind, lift.
  destruct (IncidentUpdate.validate body) as [d|e]; [|done].
  by destruct (update_incident incident_id d st) as [[x|e] st'].
Qed.

Lemma update_incident_outcome incident_id update_data st :
  (∃ x, (update_incident incident_id update_data st).1 = Returns x) ∨
  (update_incident incident_id update_data st).1 =
    Raises (HTTP_404_NOT_FOUND incident_id).
Proof.
  unfold update_incident.
  destruct (find_incident incident_id (incidents st)) as [[i x]|]; cbn; eauto.
Qed.

(** C2, for presence instead of non-emptiness.  A POST fails with a
    validation failure exactly when [title] or [severity] is missing, a
    PATCH exactly when [status] is missing, and the failure leaves the
    store as it was; a body that has its required fields passes
    validation whatever their text, the empty text included. *)
Theorem required_fields_present st body incident_id update_body :
  let post := handle (POST_incidents body) st in
  let patch := handle (PATCH_incident incident_id update_body) st in
  (post.1 = Raises HTTP_422_UNPROCESSABLE ↔
     IncidentCreate.body_title body = None ∨
     IncidentCreate.body_severity body = None) ∧
  (post.1 = Raises HTTP_422_UNPROCESSABLE → post.2 = st) ∧
  (∀ T V, IncidentCreate.body_title body = Some T →
          IncidentCreate.body_severity body = Some V →
          ∃ d x, IncidentCreate.validate body = Returns d ∧
                 post.1 = Returns (Item x) ∧
                 Incident.title x = T ∧ Incident.severity x = V) ∧
  (patch.1 = Raises HTTP_422_UNPROCESSABLE ↔
     IncidentUpdate.body_status update_body = None) ∧
  (patch.1 = Raises HTTP_422_UNPROCESSABLE → patch.2 = st) ∧
  (∀ s, IncidentUpdate.body_status update_body = Some s →
        IncidentUpdate.validate update_body = Returns (IncidentUpdate.mk s)).
Proof.
  intros post patch. subst post patch. split_and!.
  - rewrite handle_post. destruct body as [[T|] S [V|]]; cbn;
      (split; [try done; auto|by intros [?|?]]).
  - rewrite handle_post.
    by destruct (IncidentCreate.validate body) as [d|e].
  - intros T V HT HV. rewrite handle_post.
    destruct body as [t S v]. cbn in HT, HV. subst t v. cbn. eauto 10.
  - rewrite handle_patch. destruct update_body as [[s|]]; cbn; [|done].
    split; [|done].
    by destruct (update_incident_outcome incident_id (IncidentUpdate.mk s) st)
      as [[x ->]| ->].
  - rewrite handle_patch. destruct update_body as [[s|]]; cbn; [|done].
    by destruct (update_incident_outcome incident_id (IncidentUpdate.mk s) st)
      as [[x ->]| ->].
  - by intros s; destruct update_body as [[s'|]]; cbn; intros [= ->].
Qed.

(** A title, a severity or a status that is the empty text is accepted:
    on the seed store the POST creates incident 4, and the PATCH sets the
    status of incident 1 to the empty text. *)
Lemma empty_text_accepted :
  handle (POST_incidents (IncidentCreate.mkBody (Some "") None (Some "")))
    initial_store =
    (Returns (Item (Incident.mk 4 "" "open" "")),
     {| incidents := initial_incidents ++ [Incident.mk 4 "" "open" ""];
        id_counter := 4 |}) ∧
  handle (PATCH_incident 1 (IncidentUpdate.mkBody (Some ""))) initial_store =
    (Returns (Item (Incident.mk 1 "Phishing Email Campaign Detected" "" "high")),
     {| incidents :=
          Incident.mk 1 "Phishing Email Campaign Detected" "" "high"
            :: drop 1 initial_incidents;
        id_counter := 3 |}).
Proof. done. Qed.

(** * Further properties of the handlers *)

(** ** Reads *)

(** The two GETs and the health check never change the store, whatever
    their parameters and whether they return or raise; so a read can be
    repeated with the same outcome, and the store a sequence of requests
    leaves is the one its writes alone leave. *)
Theorem reads_leave_store st status severity page per_page incident_id rqs :
  (get_incidents status severity page per_page st).2 = st ∧
  (get_incident incident_id st).2 = st ∧
  (health_check st).2 = st ∧
  handle (GET_incident incident_id) (handle (GET_incident incident_id) st).2 =
    handle (GET_incident incident_id) st ∧
  (run (filter (λ rq, is_read rq = false) rqs) st).2 = (run rqs st).2.
Proof.
  assert (∀ rq s, is_read rq = true → (handle rq s).2 = s) as Hread.
  { intros [s v p pp|i|b|i b|i] s0 [=]; unfold handle, bind.
    - pose proof (get_incidents_state s v p pp s0) as E.
      by destruct (get_incidents s v p pp s0) as [[r|e] st'].
    - pose proof (get_incident_state i s0) as E.
      by destruct (get_incident i s0) as [[r|e] st']. }
  split_and!.
  - apply get_incidents_state.
  - apply get_incident_state.
  - done.
  - by rewrite (Hread (GET_incident incident_id) st).
  - revert st. induction rqs as [|rq rqs IH]; intros st; [done|].
    rewrite filter_cons. destruct (decide (is_read rq = false)) as [Hw|Hr].
    + rewrite !run_cons. cbn. apply IH.
    + rewrite (run_cons rq rqs). cbn. rewrite Hread; [apply IH|].
      by destruct (is_read rq).
Qed.

(** ** Pages *)

Lemma slice_sublist {A} (l : list A) start stop :
  Py.slice l start stop `sublist_of` l.
Proof.
  unfold Py.slice. etrans; [apply sublist_take|apply sublist_drop].
Qed.

Lemma slice_length_le {A} (l : list A) start n :
  0 ≤ n → Z.of_nat (length (Py.slice l start (start + n))) ≤ n.
Proof.
  intros Hn. unfold Py.slice, Py.adjust_index. rewrite length_take.
  repeat case_decide; lia.
Qed.

Lemma filtered_incidents_sublist status severity st :
  filtered_incidents status severity st `sublist_of` incidents st.
Proof.
  unfold filtered_incidents. etrans; apply apply_filter_sublist.
Qed.

Lemma filtered_incidents_Forall status severity st :
  (∀ S, status = Some S → S ≠ "" →
        Forall (λ i, Py.lower (Incident.status i) = Py.lower S)
          (filtered_incidents status severity st)) ∧
  (∀ V, severity = Some V → V ≠ "" →
        Forall (λ i, Py.lower (Incident.severity i) = Py.lower V)
          (filtered_incidents status severity st)).
Proof.
  unfold filtered_incidents. split.
  - intros S -> HS. rewrite (apply_filter_nonempty _ S) by done.
    apply Forall_forall. intros i Hi.
    eapply elem_of_sublist in Hi; [|apply apply_filter_sublist].
    by apply list_elem_of_filter in Hi as [? _].
  - intros V -> HV. rewrite (apply_filter_nonempty _ V) by done.
    apply Forall_forall. intros i Hi.
    by apply list_elem_of_filter in Hi as [? _].
Qed.

(** Whatever the page and the page size, a page that is returned is cut
    out of the collection: its items are incidents of the store, in the
    order of the store, each of them passes every filter that was given,
    and there are no more of them than [total], which is no more than
    the size of the collection. *)
Theorem page_within_collection st status severity page per_page r :
  (get_incidents status severity page per_page st).1 = Returns r →
  PaginatedResponse.incidents r `sublist_of` incidents st ∧
  Z.of_nat (length (PaginatedResponse.incidents r)) ≤ PaginatedResponse.total r ∧
  PaginatedResponse.total r ≤ Z.of_nat (length (incidents st)) ∧
  (∀ S, status = Some S → S ≠ "" →
        Forall (λ i, Py.lower (Incident.status i) = Py.lower S)
          (PaginatedResponse.incidents r)) ∧
  (∀ V, severity = Some V → V ≠ "" →
        Forall (λ i, Py.lower (Incident.severity i) = Py.lower V)
          (PaginatedResponse.incidents r)).
Proof.
  intros H. destruct (decide (per_page = 0)) as [->|Hp]; [done|].
  rewrite get_incidents_returns in H by done. injection H as <-. cbn.
  pose proof (filtered_incidents_sublist status severity st) as Hsub.
  pose proof (slice_sublist (filtered_incidents status severity st)
                ((page - 1) * Z.min per_page 100)
                ((page - 1) * Z.min per_page 100 + Z.min per_page 100)) as Hsl.
  destruct (filtered_incidents_Forall status severity st) as [HS HV].
  split_and!.
  - by etrans.
  - apply sublist_length in Hsl. lia.
  - apply sublist_length in Hsub. lia.
  - intros S E1 E2. specialize (HS S E1 E2). rewrite Forall_forall in HS.
    apply Forall_forall. intros i Hi. apply HS. by eapply elem_of_sublist.
  - intros V E1 E2. specialize (HV V E1 E2). rewrite Forall_forall in HV.
    apply Forall_forall. intros i Hi. apply HV. by eapply elem_of_sublist.
Qed.

Lemma page_within_collection_witness :
  ∃ r, (get_incidents (Some "CLOSED") None 1 (-1) initial_store).1 = Returns r ∧
       PaginatedResponse.incidents r `sublist_of` incidents initial_store ∧
       Forall (λ i, Py.lower (Incident.status i) = Py.lower "CLOSED")
         (PaginatedResponse.incidents r).
Proof.
  eexists. split; [reflexivity|].
  destruct (page_within_collection initial_store (Some "CLOSED") None 1 (-1) _
              eq_refl) as (Hsub & _ & _ & HS & _).
  split; [exact Hsub|]. by apply (HS "CLOSED").
Defined.

(** With a page size of at least 1 every page number, zero and negative
    ones included, gets an answer, and the answer holds at most
    [min per_page 100] items, so never more than 100; page 0 is empty. *)
Theorem page_size_bound st status severity page per_page :
  1 ≤ per_page →
  ∃ r, (get_incidents status severity page per_page st).1 = Returns r ∧
       Z.of_nat (length (PaginatedResponse.incidents r)) ≤ Z.min per_page 100 ∧
       Z.of_nat (length (PaginatedResponse.incidents r)) ≤ 100 ∧
       (page = 0 → PaginatedResponse.incidents r = []).
Proof.
  intros Hp. rewrite get_incidents_returns by lia. eexists. split; [done|]. cbn.
  pose proof (slice_length_le (filtered_incidents status severity st)
                ((page - 1) * Z.min per_page 100) (Z.min per_page 100)
                ltac:(lia)) as Hlen.
  split_and!; [lia|lia|].
  intros ->. apply length_zero_iff_nil.
  unfold Py.slice, Py.adjust_index. rewrite length_take.
  repeat case_decide; lia.
Qed.

Lemma page_size_bound_witness :
  1 ≤ 2 ∧
  ∃ r, (get_incidents None None (-1) 2 initial_store).1 = Returns r ∧
       PaginatedResponse.incidents r = take 1 initial_incidents ∧
       Z.of_nat (length (PaginatedResponse.incidents r)) ≤ Z.min 2 100.
Proof.
  assert (1 ≤ 2) as Hp by lia. split; [exact Hp|].
  destruct (page_size_bound initial_store None None (-1) 2 Hp)
    as (r & Hr & Hlen & _).
  exists r. split; [exact Hr|]. split; [|exact Hlen].
  by injection Hr as <-.
Defined.

(** From page 1 on, with a page size of at least 1, a page holds
    [min per_page (total - (page - 1) * per_page)] items, none if that
    is negative ([per_page] being the capped size): every page before the
    last is full, the last one holds between 1 and [per_page] items, and
    a page after the last is empty. *)
Theorem page_length st status severity page per_page :
  1 ≤ per_page → 1 ≤ page →
  ∃ r, (get_incidents status severity page per_page st).1 = Returns r ∧
       let pp := PaginatedResponse.per_page r in
       let total := PaginatedResponse.total r in
       let tp := PaginatedResponse.total_pages r in
       let n := Z.of_nat (length (PaginatedResponse.incidents r)) in
       n = Z.max 0 (Z.min pp (total - (page - 1) * pp)) ∧
       (page < tp → n = pp) ∧
       (page = tp → 1 ≤ n ≤ pp) ∧
       (tp < page → PaginatedResponse.incidents r = []).
Proof.
  intros Hp Hpage. rewrite get_incidents_returns by lia.
  eexists. split; [done|]. cbn.
  set (pp := Z.min per_page 100).
  set (l := filtered_incidents status severity st).
  assert (1 ≤ pp) as Hpp by (unfold pp; lia).
  pose proof (ceiling_div (Z.of_nat (length l)) pp ltac:(lia)) as Hc.
  cbn zeta in Hc. set (tp := (Z.of_nat (length l) + pp - 1) `div` pp) in *.
  rewrite slice_window by nia.
  assert (Z.of_nat (length (take (Z.to_nat pp)
                              (drop (Z.to_nat ((page - 1) * pp)) l))) =
          Z.max 0 (Z.min pp (Z.of_nat (length l) - (page - 1) * pp))) as Hn.
  { rewrite length_take, length_drop. nia. }
  split_and!; [done|intros; nia|intros; nia|].
  intros Hlt. apply length_zero_iff_nil. nia.
Qed.

Lemma page_length_witness :
  1 ≤ 2 ∧ 1 ≤ 2 ∧
  ∃ r, (get_incidents None None 2 2 initial_store).1 = Returns r ∧
       PaginatedResponse.incidents r = drop 2 initial_incidents ∧
       (2 = PaginatedResponse.total_pages r →
        1 ≤ Z.of_nat (length (PaginatedResponse.incidents r))
          ≤ PaginatedResponse.per_page r).
Proof.
  assert (1 ≤ 2) as Hp by lia. split; [exact Hp|]. split; [exact Hp|].
  destruct (page_length initial_store None None 2 2 Hp Hp)
    as (r & Hr & _ & _ & Hlast & _).
  exists r. split; [exact Hr|]. split; [|exact Hlast].
  by injection Hr as <-.
Defined.

(** ** Filters *)

Lemma lower_char_idemp c : Py.lower_char (Py.lower_char c) = Py.lower_char c.
Proof. by destruct c as [[] [] [] [] [] [] [] []]. Qed.

Lemma lower_idemp s : Py.lower (Py.lower s) = Py.lower s.
Proof.
  induction s as [|c s IH]; [done|]. cbn. by rewrite lower_char_idemp, IH.
Qed.

Lemma lower_nonempty s : s ≠ "" → Py.lower s ≠ "".
Proof. by destruct s. Qed.

Lemma apply_filter_lower field s s' l :
  s ≠ "" → s' ≠ "" → Py.lower s = Py.lower s' →
  apply_filter field (Some s) l = apply_filter field (Some s') l.
Proof.
  intros Hs Hs' E. rewrite !apply_filter_nonempty by done.
  apply list_filter_iff. intros i. by rewrite E.
Qed.

(** A filter acts through its lowered text only: two non-empty filter
    texts that differ in case alone give the same answer, for the status
    filter and for the severity filter, and a filter text gives the
    answer of its own lowering. *)
Theorem filter_case_insensitive st S S' other page per_page :
  S ≠ "" → S' ≠ "" → Py.lower S = Py.lower S' →
  get_incidents (Some S) other page per_page st =
    get_incidents (Some S') other page per_page st ∧
  get_incidents other (Some S) page per_page st =
    get_incidents other (Some S') page per_page st ∧
  get_incidents (Some (Py.lower S)) other page per_page st =
    get_incidents (Some S) other page per_page st.
Proof.
  intros HS HS' E. unfold get_incidents, filtered_incidents.
  rewrite (apply_filter_lower Incident.status S S') by done.
  rewrite (apply_filter_lower Incident.severity S S') by done.
  rewrite (apply_filter_lower Incident.status (Py.lower S) S');
    [done|by apply lower_nonempty|done|by rewrite lower_idemp].
Qed.

Lemma filter_case_insensitive_witness :
  "OPEN" ≠ "" ∧ "Open" ≠ "" ∧ Py.lower "OPEN" = Py.lower "Open" ∧
  get_incidents (Some "OPEN") None 1 10 initial_store =
    get_incidents (Some "Open") None 1 10 initial_store ∧
  (get_incidents (Some "OPEN") None 1 10 initial_store).1 =
    Returns (PaginatedResponse.mk (take 1 initial_incidents) 1 1 10 1).
Proof.
  assert ("OPEN" ≠ "") as H1 by discriminate.
  assert ("Open" ≠ "") as H2 by discriminate.
  split; [exact H1|]. split; [exact H2|]. split; [reflexivity|].
  split; [|reflexivity].
  by destruct (filter_case_insensitive initial_store "OPEN" "Open" None 1 10
                 H1 H2 eq_refl) as [H _].
Defined.

Lemma apply_filter_comm f g p q l :
  apply_filter f p (apply_filter g q l) = apply_filter g q (apply_filter f p l).
Proof.
  unfold apply_filter. destruct (Py.truthy p), (Py.truthy q); try done.
  rewrite !list_filter_filter. apply list_filter_iff. tauto.
Qed.

(** The two filters can be applied in either order, and a filter only
    removes: what passes both filters passes each of them alone, in the
    same relative order, so the total with both filters is at most the
    total with one. *)
Theorem filters_narrow st status severity :
  apply_filter Incident.severity severity
    (apply_filter Incident.status status (incidents st)) =
  apply_filter Incident.status status
    (apply_filter Incident.severity severity (incidents st)) ∧
  filtered_incidents status severity st `sublist_of`
    filtered_incidents status None st ∧
  filtered_incidents status severity st `sublist_of`
    filtered_incidents None severity st ∧
  (length (filtered_incidents status severity st) ≤
     length (filtered_incidents status None st)
       `min` length (filtered_incidents None severity st))%nat.
Proof.
  assert (filtered_incidents status severity st `sublist_of`
            filtered_incidents status None st) as H1.
  { unfold filtered_incidents. rewrite apply_filter_None.
    apply apply_filter_sublist. }
  assert (filtered_incidents status severity st `sublist_of`
            filtered_incidents None severity st) as H2.
  { unfold filtered_incidents. rewrite apply_filter_comm, apply_filter_None.
    apply apply_filter_sublist. }
  split_and!; [apply apply_filter_comm|done|done|].
  apply sublist_length in H1, H2. lia.
Qed.

(** ** Lookups after writes *)

Lemma find_incident_head incident_id l :
  snd <$> find_incident incident_id l =
    head (filter (λ x, Incident.id x = incident_id) l).
Proof.
  unfold find_incident. induction l as [|x l IH]; [done|].
  cbn [list_find]. rewrite filter_cons.
  destruct (decide (Incident.id x = incident_id)); [done|].
  rewrite <- IH. by destruct (list_find _ l) as [[??]|].
Qed.

Lemma get_incident_head incident_id st :
  (get_incident incident_id st).1 =
    match head (filter (λ x, Incident.id x = incident_id) (incidents st)) with
    | Some x => Returns x
    | None => Raises (HTTP_404_NOT_FOUND incident_id)
    end.
Proof.
  unfold get_incident. rewrite <- find_incident_head.
  by destruct (find_incident _ _) as [[??]|].
Qed.

Lemma reachable_unique st x y :
  reachable st → x ∈ incidents st → y ∈ incidents st →
  Incident.id x = Incident.id y → x = y.
Proof.
  intros Hr%reachable_inv%store_inv_NoDup Hx Hy E. unfold ids in Hr.
  apply list_elem_of_lookup in Hx as [i Hi], Hy as [j Hj].
  assert (i = j) as ->; [|congruence].
  eapply NoDup_lookup; [exact Hr|..].
  - by rewrite list_lookup_fmap, Hi.
  - by rewrite list_lookup_fmap, Hj, E.
Qed.

(** In a reachable store a lookup by id finds every incident of the
    collection under its own id and nothing else: [get_incident]
    returns [x] exactly when [x] is in the collection and carries the
    id. *)
Theorem get_incident_iff_member st incident_id x :
  reachable st →
  get_incident incident_id st = (Returns x, st) ↔
    x ∈ incidents st ∧ Incident.id x = incident_id.
Proof.
  intros Hr. split.
  - intros H. destruct (decide (incident_id ∈ ids st)) as [Hin|Hin];
      [|by rewrite get_incident_absent in H].
    destruct (ids_split _ _ Hin) as (l1 & x0 & l2 & Hl & Hx & Hl1).
    rewrite (get_incident_found _ _ _ _ _ Hl Hx Hl1) in H.
    injection H as <-. split; [|done].
    rewrite Hl. apply elem_of_app. right. by left.
  - intros [Hx Hid].
    assert (incident_id ∈ ids st) as Hin.
    { apply list_elem_of_fmap. by exists x. }
    destruct (ids_split _ _ Hin) as (l1 & x0 & l2 & Hl & Hx0 & Hl1).
    rewrite (get_incident_found _ _ _ _ _ Hl Hx0 Hl1).
    assert (x0 = x) as ->; [|done].
    apply (reachable_unique st); [done| |done|congruence].
    rewrite Hl. apply elem_of_app. right. by left.
Qed.

Lemma get_incident_iff_member_witness :
  reachable initial_store ∧
  get_incident 3 initial_store =
    (Returns (Incident.mk 3 "Suspicious Login from Foreign IP"
                "under investigation" "low"), initial_store).
Proof.
  split; [apply reachable_initial|].
  apply (get_incident_iff_member initial_store 3 _ reachable_initial).
  split; [|reflexivity]. cbn. right. right. left.
Defined.

(** An update that succeeds can be read back: the incident it returns
    carries the id and the new status, a lookup of the id right after
    returns that same incident, and, the new status being a non-empty
    text, the incident passes the status filter for it. *)
Theorem update_then_get st incident_id update_data x st' :
  update_incident incident_id update_data st = (Returns x, st') →
  Incident.id x = incident_id ∧
  Incident.status x = IncidentUpdate.status update_data ∧
  get_incident incident_id st' = (Returns x, st') ∧
  (IncidentUpdate.status update_data ≠ "" →
   x ∈ filtered_incidents (Some (IncidentUpdate.status update_data)) None st').
Proof.
  intros H. destruct (decide (incident_id ∈ ids st)) as [Hin|Hin];
    [|by rewrite update_incident_absent in H].
  destruct (ids_split _ _ Hin) as (l1 & x0 & l2 & Hl & Hx & Hl1).
  rewrite (update_incident_found _ _ _ _ _ _ Hl Hx Hl1) in H.
  injection H as <- <-. split_and!; [done|done| |].
  - by apply (get_incident_found _ _ l1 _ l2).
  - intros Hs. unfold filtered_incidents.
    rewrite apply_filter_None, apply_filter_nonempty by done. cbn.
    apply list_elem_of_filter. split; [done|].
    apply elem_of_app. right. by left.
Qed.

Lemma update_then_get_witness :
  ∃ x st',
    update_incident 1 (IncidentUpdate.mk "closed") initial_store = (Returns x, st') ∧
    get_incident 1 st' = (Returns x, st') ∧
    Incident.status x = "closed".
Proof.
  eexists _, _. split; [reflexivity|].
  destruct (update_then_get initial_store 1 (IncidentUpdate.mk "closed") _ _
              eq_refl) as (_ & Hs & Hg & _).
  split; [exact Hg|exact Hs].
Defined.

(** Of two updates of the same id in a row the second one alone counts:
    outcome and store are those of the second update applied directly,
    so repeating an update changes nothing more. *)
Theorem update_last_write_wins st incident_id d1 d2 :
  update_incident incident_id d2 (update_incident incident_id d1 st).2 =
    update_incident incident_id d2 st ∧
  update_incident incident_id d1 (update_incident incident_id d1 st).2 =
    update_incident incident_id d1 st.
Proof.
  assert (∀ a b, update_incident incident_id b
                   (update_incident incident_id a st).2 =
                 update_incident incident_id b st) as H; [|by split].
  intros a b. destruct (decide (incident_id ∈ ids st)) as [Hin|Hin].
  - destruct (ids_split _ _ Hin) as (l1 & x & l2 & Hl & Hx & Hl1).
    rewrite (update_incident_found _ a _ _ _ _ Hl Hx Hl1). cbn [snd].
    rewrite (update_incident_found _ b _ _ _ _ Hl Hx Hl1).
    by rewrite (update_incident_found _ b
                  {| incidents :=
                       l1 ++ Incident.set_status (IncidentUpdate.status a) x :: l2;
                     id_counter := id_counter st |}
                  l1 (Incident.set_status (IncidentUpdate.status a) x) l2
                  eq_refl Hx Hl1).
  - rewrite (update_incident_absent _ a) by done. cbn [snd].
    by rewrite !update_incident_absent.
Qed.

(** A write under one id leaves the lookups of every other id as they
    were: after an update or a delete of [incident_id], and after a
    create (whose new id is [id_counter + 1]), a lookup of another id
    returns what it returned before, or fails as it failed before. *)
Theorem lookup_frame st incident_id other update_data incident_data :
  other ≠ incident_id →
  (get_incident other (update_incident incident_id update_data st).2).1 =
    (get_incident other st).1 ∧
  (get_incident other (delete_incident incident_id st).2).1 =
    (get_incident other st).1 ∧
  (other ≠ id_counter st + 1 →
   (get_incident other (create_incident incident_data st).2).1 =
     (get_incident other st).1).
Proof.
  intros Hne. rewrite !get_incident_head. split_and!.
  - destruct (decide (incident_id ∈ ids st)) as [Hin|Hin];
      [|by rewrite update_incident_absent].
    destruct (ids_split _ _ Hin) as (l1 & x & l2 & Hl & Hx & Hl1).
    rewrite (update_incident_found _ _ _ _ _ _ Hl Hx Hl1). cbn [snd incidents].
    rewrite Hl, !filter_app, !filter_cons_False; [done|..]; cbn; congruence.
  - destruct (decide (incident_id ∈ ids st)) as [Hin|Hin];
      [|by rewrite delete_incident_absent].
    destruct (ids_split _ _ Hin) as (l1 & x & l2 & Hl & Hx & Hl1).
    rewrite (delete_incident_found _ _ _ _ _ Hl Hx Hl1). cbn [snd incidents].
    rewrite Hl, !filter_app, filter_cons_False; [done|]. congruence.
  - intros Hnew. rewrite create_incident_spec. cbn [snd incidents].
    rewrite filter_app, filter_cons_False, filter_nil, app_nil_r; [done|].
    cbn. congruence.
Qed.

Lemma lookup_frame_witness :
  3 ≠ 2 ∧
  (get_incident 3 (delete_incident 2 initial_store).2).1 =
    (get_incident 3 initial_store).1 ∧
  (get_incident 3 initial_store).1 =
    Returns (Incident.mk 3 "Suspicious Login from Foreign IP"
               "under investigation" "low").
Proof.
  assert (3 ≠ 2) as Hne by lia. split; [exact Hne|]. split; [|reflexivity].
  by destruct (lookup_frame initial_store 2 3 (IncidentUpdate.mk "closed")
                 (IncidentCreate.mk "T" "open" "low") Hne) as (_ & H & _).
Defined.

(** In a reachable store, deleting the incident a create has just
    returned gives the collection back as it was before the create; the
    counter keeps the increment, so the id is spent. *)
Theorem create_then_delete st incident_data :
  reachable st →
  ∃ x st1,
    create_incident incident_data st = (Returns x, st1) ∧
    delete_incident (Incident.id x) st1 =
      (Returns x, {| incidents := incidents st;
                     id_counter := id_counter st + 1 |}).
Proof.
  intros Hr. eexists _, _. split; [apply create_incident_spec|].
  erewrite (delete_incident_found _ _ (incidents st) _ []); [|done|done|].
  - by rewrite app_nil_r.
  - apply reachable_inv in Hr as [_ Hb]. rewrite Forall_forall in Hb.
    intros Hin. specialize (Hb _ Hin). cbn in Hb. lia.
Qed.

Lemma create_then_delete_witness :
  reachable initial_store ∧
  delete_incident 4
    (create_incident (IncidentCreate.mk "T" "open" "low") initial_store).2 =
    (Returns (Incident.mk 4 "T" "open" "low"),
     {| incidents := initial_incidents; id_counter := 4 |}).
Proof.
  split; [apply reachable_initial|].
  destruct (create_then_delete initial_store (IncidentCreate.mk "T" "open" "low")
              reachable_initial) as (x & st1 & Hc & Hd).
  injection Hc as <- <-. exact Hd.
Defined.

(** ** Failures *)

(** A request that fails leaves the store as it was, and fails in the
    way of its endpoint only: the list raises on the division by a zero
    page size and on nothing else, a lookup and a delete raise NotFound
    for their id, which the collection does not hold, a create raises
    the validation failure only, and an update either of the two. *)
Theorem failure_is_atomic rq st e :
  (handle rq st).1 = Raises e →
  (handle rq st).2 = st ∧
  match rq with
  | GET_incidents _ _ _ per_page => e = ZeroDivisionError ∧ per_page = 0
  | GET_incident i | DELETE_incident i =>
      e = HTTP_404_NOT_FOUND i ∧ i ∉ ids st
  | POST_incidents _ => e = HTTP_422_UNPROCESSABLE
  | PATCH_incident i _ =>
      e = HTTP_422_UNPROCESSABLE ∨ (e = HTTP_404_NOT_FOUND i ∧ i ∉ ids st)
  end.
Proof.
  destruct rq as [s v p pp|i|b|i b|i].
  - unfold handle, bind. destruct (decide (pp = 0)) as [->|Hp].
    + cbn. by intros [= <-].
    + by rewrite get_incidents_returns.
  - unfold handle, bind. destruct (decide (i ∈ ids st)) as [Hin|Hin].
    + destruct (ids_split _ _ Hin) as (l1 & x & l2 & Hl & Hx & Hl1).
      by rewrite (get_incident_found _ _ _ _ _ Hl Hx Hl1).
    + rewrite get_incident_absent by done. cbn. by intros [= <-].
  - rewrite handle_post.
    destruct (IncidentCreate.validate b) as [d|e'] eqn:E; [done|].
    cbn. intros [= <-]. split; [done|].
    unfold IncidentCreate.validate in E.
    by destruct (IncidentCreate.body_title b), (IncidentCreate.body_severity b);
      simplify_eq.
  - rewrite handle_patch.
    destruct (IncidentUpdate.validate b) as [d|e'] eqn:E.
    + destruct (decide (i ∈ ids st)) as [Hin|Hin].
      * destruct (ids_split _ _ Hin) as (l1 & x & l2 & Hl & Hx & Hl1).
        by rewrite (update_incident_found _ _ _ _ _ _ Hl Hx Hl1).
      * rewrite update_incident_absent by done. cbn. intros [= <-]. auto.
    + cbn. intros [= <-]. split; [done|]. left.
      unfold IncidentUpdate.validate in E.
      by destruct (IncidentUpdate.body_status b); simplify_eq.
  - unfold handle, bind. destruct (decide (i ∈ ids st)) as [Hin|Hin].
    + destruct (ids_split _ _ Hin) as (l1 & x & l2 & Hl & Hx & Hl1).
      by rewrite (delete_incident_found _ _ _ _ _ Hl Hx Hl1).
    + rewrite delete_incident_absent by done. cbn. by intros [= <-].
Qed.

Lemma failure_is_atomic_witness :
  (handle (PATCH_incident 9 (IncidentUpdate.mkBody (Some "closed")))
     initial_store).1 = Raises (HTTP_404_NOT_FOUND 9) ∧
  (handle (PATCH_incident 9 (IncidentUpdate.mkBody (Some "closed")))
     initial_store).2 = initial_store.
Proof.
  split; [reflexivity|].
  by destruct (failure_is_atomic
                 (PATCH_incident 9 (IncidentUpdate.mkBody (Some "closed")))
                 initial_store (HTTP_404_NOT_FOUND 9) eq_refl) as [H _].
Defined.

(** ** Size of the collection *)

Lemma deleted_count_cons rq o tr :
  deleted_count ((rq, o) :: tr) = (deleted_count [(rq, o)] + deleted_count tr)%nat.
Proof. destruct rq; try done. by destruct o. Qed.

Lemma handle_count rq st :
  (length (incidents (handle rq st).2) + deleted_count [(rq, (handle rq st).1)] =
   length (incidents st) + length (created_ids [(rq, (handle rq st).1)]))%nat.
Proof.
  destruct rq as [s v p pp|i|b|i b|i].
  - unfold handle, bind. pose proof (get_incidents_state s v p pp st) as E.
    destruct (get_incidents s v p pp st) as [[r|e] st']; cbn in *; subst; lia.
  - unfold handle, bind. pose proof (get_incident_state i st) as E.
    destruct (get_incident i st) as [[r|e] st']; cbn in *; subst; lia.
  - rewrite handle_post. destruct (IncidentCreate.validate b) as [d|e]; [|cbn; lia].
    rewrite create_incident_spec. cbn. rewrite length_app. cbn. lia.
  - rewrite handle_patch. destruct (IncidentUpdate.validate b) as [d|e]; [|cbn; lia].
    destruct (update_incident_ids i d st) as [_ Hlen].
    destruct (update_incident i d st) as [[r|e] st']; cbn in *; lia.
  - unfold handle, bind. destruct (decide (i ∈ ids st)) as [Hin|Hin].
    + destruct (ids_split _ _ Hin) as (l1 & x & l2 & Hl & Hx & Hl1).
      rewrite (delete_incident_found _ _ _ _ _ Hl Hx Hl1). cbn.
      rewrite Hl, !length_app. cbn. lia.
    + rewrite delete_incident_absent by done. cbn. lia.
Qed.

(** The health check reports the size of the collection, which is the
    [total] of a list request without filters; after any sequence of
    requests, from any store, that size is the size at the start plus
    the successful creates minus the successful deletes. *)
Theorem health_check_counts rqs st page per_page :
  let tr := (run rqs st).1 in
  let st' := (run rqs st).2 in
  ∃ h, health_check st' = (Returns h, st') ∧
       HealthResponse.total_incidents h + Z.of_nat (deleted_count tr) =
         Z.of_nat (length (incidents st)) + Z.of_nat (length (created_ids tr)) ∧
       (per_page ≠ 0 →
        ∃ r, (get_incidents None None page per_page st').1 = Returns r ∧
             PaginatedResponse.total r = HealthResponse.total_incidents h).
Proof.
  cbn zeta. eexists. split; [done|]. cbn. split.
  - revert st. induction rqs as [|rq rqs IH]; intros st; [cbn; lia|].
    rewrite run_cons. cbn [fst snd].
    rewrite created_ids_cons, deleted_count_cons, length_app.
    specialize (IH (handle rq st).2). pose proof (handle_count rq st). lia.
  - intros Hp. rewrite get_incidents_returns by done. by eexists.
Qed.

Lemma health_check_counts_witness :
  let rqs := [POST_incidents (IncidentCreate.mkBody (Some "X") None (Some "low"));
              DELETE_incident 2; DELETE_incident 2] in
  (health_check (run rqs initial_store).2).1 =
    Returns (HealthResponse.mk "healthy" 3 "2.0") ∧
  ∃ r, (get_incidents None None 1 10 (run rqs initial_store).2).1 = Returns r ∧
       PaginatedResponse.total r = 3.
Proof.
  intros rqs. split; [reflexivity|].
  destruct (health_check_counts rqs initial_store 1 10) as (h & Hh & _ & Hl).
  destruct Hl as (r & Hr & Ht); [lia|].
  exists r. split; [exact Hr|]. rewrite Ht. by injection Hh as <-.
Defined.

(** ** Authentication *)

(** [verify_token] names a user for the one token of [VALID_TOKENS] and
    for nothing else: without credentials, or with any other token, there
    is no user; the scheme of the credentials plays no part. *)
Theorem verify_token_iff credentials user :
  verify_token credentials = Some user ↔
    ∃ c, credentials = Some c ∧
         HTTPAuthorizationCredentials.credentials c = "demo-token-123" ∧
         user = "demo_user".
Proof.
  unfold verify_token, VALID_TOKENS. destruct credentials as [c|].
  - rewrite lookup_singleton_Some. split.
    + intros [E <-]. by exists c.
    + by intros (c' & [= <-] & E & ->).
  - split; [done|]. by intros (c' & ? & _).
Qed.

(** ** Creation with a status *)

(** A POST keeps the texts of its body as they are, whatever they are:
    in a reachable store the incident created has the title, the status
    and the severity given, it is the last of the collection, and a
    lookup of its id returns it. *)
Theorem create_keeps_fields st T s V :
  reachable st →
  ∃ x st',
    handle (POST_incidents (IncidentCreate.mkBody (Some T) (Some s) (Some V))) st =
      (Returns (Item x), st') ∧
    x = Incident.mk (id_counter st + 1) T s V ∧
    last (incidents st') = Some x ∧
    length (incidents st') = S (length (incidents st)) ∧
    get_incident (Incident.id x) st' = (Returns x, st').
Proof.
  intros Hr. eexists _, _. split; [reflexivity|]. split; [reflexivity|]. cbn.
  split; [apply last_snoc|]. split; [rewrite length_app; cbn; lia|].
  apply (get_incident_found _ _ (incidents st) _ []); [done..|].
  apply reachable_inv in Hr as [_ Hb]. rewrite Forall_forall in Hb.
  intros Hin. specialize (Hb _ Hin). cbn in Hb. lia.
Qed.

Lemma create_keeps_fields_witness :
  reachable initial_store ∧
  ∃ st',
    handle (POST_incidents
              (IncidentCreate.mkBody (Some "Critical Security Breach")
                 (Some "triaged") (Some "critical"))) initial_store =
      (Returns (Item (Incident.mk 4 "Critical Security Breach" "triaged" "critical")),
       st') ∧
    get_incident 4 st' =
      (Returns (Incident.mk 4 "Critical Security Breach" "triaged" "critical"), st').
Proof.
  split; [apply reachable_initial|].
  destruct (create_keeps_fields initial_store "Critical Security Breach"
              "triaged" "critical" reachable_initial)
    as (x & st' & Hc & -> & _ & _ & Hg).
  exists st'. split; [exact Hc|exact Hg].
Defined.

(** ** Pages above the cap *)

Lemma get_incidents_capped status severity page per_page st :
  100 ≤ per_page →
  get_incidents status severity page per_page st =
    get_incidents status severity page 100 st.
Proof.
  intros Hp. rewrite !get_incidents_returns by lia.
  by rewrite (Z.min_r per_page 100) by lia.
Qed.

(** A page size above 100 is served as 100 throughout, not in the
    metadata alone: every page is the page of size 100, and the pages 1
    to [total_pages] still make up the filtered list, each incident
    once. *)
Theorem pages_cover_above_cap st status severity per_page :
  100 ≤ per_page →
  (∀ page, get_incidents status severity page per_page st =
             get_incidents status severity page 100 st) ∧
  ∃ total_pages,
    (∀ page, ∃ r,
       (get_incidents status severity page per_page st).1 = Returns r ∧
       PaginatedResponse.total_pages r = total_pages) ∧
    concat (page_items status severity per_page st <$> seqZ 1 total_pages) =
      filtered_incidents status severity st.
Proof.
  intros Hp. split; [intros page; by apply get_incidents_capped|].
  set (l := filtered_incidents status severity st).
  set (total := Z.of_nat (length l)).
  exists ((total + 100 - 1) `div` 100). split.
  - intros page. rewrite get_incidents_capped, get_incidents_returns by lia.
    by eexists.
  - pose proof (ceiling_div total 100 ltac:(lia)) as Hc. cbn zeta in Hc.
    set (tp := (total + 100 - 1) `div` 100) in *.
    assert (0 ≤ tp) as Htp by lia.
    rewrite (Forall_fmap_ext_1 _
               (λ p : Z, take (Z.to_nat 100)
                  (drop (Z.to_nat ((p - 1) * Z.of_nat (Z.to_nat 100))) l))).
    2:{ apply Forall_seqZ. intros p Hrange. unfold page_items.
        rewrite get_incidents_capped by done.
        apply (page_items_window status severity 100 st p); lia. }
    rewrite <- (Z2Nat.id tp) by done. rewrite concat_windows.
    apply take_ge. unfold total in Hc. lia.
Qed.

Lemma pages_cover_above_cap_witness :
  100 ≤ 1000 ∧
  get_incidents None None 1 1000 initial_store =
    (Returns (PaginatedResponse.mk initial_incidents 3 1 100 1), initial_store) ∧
  ∃ total_pages,
    concat (page_items None None 1000 initial_store <$> seqZ 1 total_pages) =
      initial_incidents.
Proof.
  assert (100 ≤ 1000) as Hp by lia. split; [exact Hp|]. split; [reflexivity|].
  destruct (pages_cover_above_cap initial_store None None 1000 Hp)
    as (_ & tp & _ & Hcat).
  by exists tp.
Defined.
